(** * The photo editor of [src/components/cpf/PhotoEditorModal.tsx]

    A shallow embedding of the editor's canvas pipeline: the size and the
    repaint of the canvas ([renderCanvas]), the tolerance flood fill
    ([floodFill]), the snapshot history with [handleUndo], and the handlers
    that reset it ([handleRotate], [handleScaleChange]).

    The component keeps its React state in a [Session] record; the canvas
    element is the one mutable object shared by all handlers and is a field of
    the same record.  A handler is a function on sessions, followed by the
    re-render React performs after it: the effect
    [useEffect(() => renderCanvas(), [renderCanvas])] repaints the canvas
    whenever one of the dependencies of [renderCanvas]
    ([originalImage], [rotation], [scale], [history.length]) has changed. *)

From Stdlib Require Import ZArith Lia Bool SpecFloat.
From stdpp Require Import base list.

Open Scope Z_scope.

(** ** JavaScript numbers

    [scale / 100] and [img.width * scaleFactor] are IEEE 754 binary64
    operations; they are modelled by the executable specification of the
    Standard Library. Integers that the program handles (coordinates, sizes,
    colour samples, the rotation, the slider values) are exact in binary64 and
    are kept in [Z]. *)
Module Num.

Definition prec : Z := 53.
Definition emax : Z := 1024.

Definition of_Z (n : Z) : spec_float := binary_normalize prec emax n 0 false.
Definition div : spec_float -> spec_float -> spec_float := SFdiv prec emax.
Definition mul : spec_float -> spec_float -> spec_float := SFmul prec emax.

(** Assigning a number to [canvas.width] or [canvas.height] converts it to
    an [unsigned long]: NaN, the infinities and the zeros give 0, any other
    number is truncated toward zero.  (The wrap-around of the conversion at
    2^32 is not modelled: the sizes of an image stay far below it.) *)
Definition to_unsigned_long (x : spec_float) : Z :=
  match x with
  | S754_finite s m e =>
      let a := match e with
               | Zneg p => Z.shiftr (Zpos m) (Zpos p)
               | _ => Z.shiftl (Zpos m) e
               end in
      if s then - a else a
  | _ => 0
  end.

End Num.

(** ** Typed arrays

    [data] is a [Uint8ClampedArray] and [visited] a [Uint8Array]: a read
    outside the array gives [undefined] ([None]), a write outside it is
    ignored. Samples are the integers 0..255. *)
Definition lookupZ (l : list Z) (i : Z) : option Z :=
  if i <? 0 then None else l !! Z.to_nat i.

Definition storeZ (l : list Z) (i : Z) (v : Z) : list Z :=
  if i <? 0 then l else <[Z.to_nat i := v]> l.

(** [Math.abs(a - b) <= tol]; with [undefined] on either side the difference
    is NaN and the comparison is false. *)
Definition abs_diff_le (a b : option Z) (tol : Z) : bool :=
  match a, b with
  | Some a, Some b => Z.abs (a - b) <=? tol
  | _, _ => false
  end.

(** [a > 0], false for [undefined]. *)
Definition positive_sample (a : option Z) : bool :=
  match a with
  | Some a => 0 <? a
  | None => false
  end.

(** [a === 0]. *)
Definition is_zero (a : option Z) : bool :=
  match a with
  | Some a => a =? 0
  | None => false
  end.

(** Truthiness of [visited[pos]]. *)
Definition truthy (a : option Z) : bool :=
  match a with
  | Some a => negb (a =? 0)
  | None => false
  end.

(** ** The flood fill loop (lines 117-151) *)

(** The target colour read at the seed; a component is [None] when the seed
    index lies outside [data]. *)
Record Target := { targetR : option Z; targetG : option Z; targetB : option Z }.

Definition matches (data : list Z) (tgt : Target) (tol : Z) (idx : Z) : bool :=
  abs_diff_le (lookupZ data idx) (targetR tgt) tol &&
  abs_diff_le (lookupZ data (idx + 1)) (targetG tgt) tol &&
  abs_diff_le (lookupZ data (idx + 2)) (targetB tgt) tol &&
  positive_sample (lookupZ data (idx + 3)).

(** The variables of the loop. [stack] holds the pending coordinates; the
    source keeps them flat ([x] then [y]) and always pushes and pops them two
    at a time, so the model keeps them as pairs, the top of the stack first. *)
Record FillState := {
  fs_data : list Z;
  fs_visited : list Z;
  fs_stack : list (Z * Z)
}.

(** One iteration of [while (stack.length > 0)]; [None] when the loop exits. *)
Definition fill_step (width height : Z) (tgt : Target) (tol : Z)
    (st : FillState) : option FillState :=
  match fs_stack st with
  | [] => None
  | (x, y) :: rest =>
      let pos := y * width + x in
      let skip := {| fs_data := fs_data st; fs_visited := fs_visited st;
                     fs_stack := rest |} in
      if (x <? 0) || (x >=? width) || (y <? 0) || (y >=? height) then Some skip
      else if truthy (lookupZ (fs_visited st) pos) then Some skip
      else
        let idx := pos * 4 in
        if negb (matches (fs_data st) tgt tol idx) then Some skip
        else
          Some {| fs_data := storeZ (fs_data st) (idx + 3) 0;
                  fs_visited := storeZ (fs_visited st) pos 1;
                  fs_stack := (x, y - 1) :: (x, y + 1) :: (x - 1, y)
                              :: (x + 1, y) :: rest |}
  end.

(** At most [n] iterations of the loop. *)
Fixpoint fill_iter (width height : Z) (tgt : Target) (tol : Z) (n : nat)
    (st : FillState) : FillState :=
  match n with
  | O => st
  | S n' =>
      match fill_step width height tgt tol st with
      | None => st
      | Some st' => fill_iter width height tgt tol n' st'
      end
  end.

(** The number of iterations after which the loop has always exited
    (see [fill_loop_exits]). *)
Definition fill_bound (width height : Z) : nat :=
  (4 * Z.to_nat (width * height) + 1)%nat.

Definition seed_target (data : list Z) (startIdx : Z) : Target :=
  {| targetR := lookupZ data startIdx;
     targetG := lookupZ data (startIdx + 1);
     targetB := lookupZ data (startIdx + 2) |}.

Definition fill_start (width height : Z) (data : list Z) (startX startY : Z)
    : FillState :=
  {| fs_data := data;
     fs_visited := replicate (Z.to_nat (width * height)) 0;
     fs_stack := [(startX, startY)] |}.

(** The whole loop, run from the seed on a copy [data] of the canvas. *)
Definition fill_loop (width height : Z) (tol : Z) (data : list Z)
    (startX startY : Z) : FillState :=
  let startIdx := (startY * width + startX) * 4 in
  fill_iter width height (seed_target data startIdx) tol
    (fill_bound width height) (fill_start width height data startX startY).

(** ** Images, the canvas and the session *)

(** What [getImageData] returns and what [history] stores; also the bitmap of
    the canvas itself, whose samples are kept as they were written. *)
Record ImageData := { width : Z; height : Z; data : list Z }.

(** The decoded [HTMLImageElement]. Resampling is the browser's business:
    [drawn rotation scale] is the bitmap that
    [clearRect; translate; rotate; drawImage] leave on the canvas for this
    image (lines 63-68). *)
Record Image := {
  img_width : Z;
  img_height : Z;
  drawn : Z -> Z -> list Z
}.

Record Session := {
  originalImage : option Image;
  rotation : Z;
  scale : Z;
  bgRemoveMode : bool;
  tolerance : Z;
  history : list ImageData;
  canvas : ImageData
}.

Definition set_history (h : list ImageData) (s : Session) : Session :=
  {| originalImage := originalImage s; rotation := rotation s; scale := scale s;
     bgRemoveMode := bgRemoveMode s; tolerance := tolerance s;
     history := h; canvas := canvas s |}.

Definition set_canvas (c : ImageData) (s : Session) : Session :=
  {| originalImage := originalImage s; rotation := rotation s; scale := scale s;
     bgRemoveMode := bgRemoveMode s; tolerance := tolerance s;
     history := history s; canvas := c |}.

Definition set_rotation (r : Z) (s : Session) : Session :=
  {| originalImage := originalImage s; rotation := r; scale := scale s;
     bgRemoveMode := bgRemoveMode s; tolerance := tolerance s;
     history := history s; canvas := canvas s |}.

Definition set_scale (v : Z) (s : Session) : Session :=
  {| originalImage := originalImage s; rotation := rotation s; scale := v;
     bgRemoveMode := bgRemoveMode s; tolerance := tolerance s;
     history := history s; canvas := canvas s |}.

Definition set_bgRemoveMode (b : bool) (s : Session) : Session :=
  {| originalImage := originalImage s; rotation := rotation s; scale := scale s;
     bgRemoveMode := b; tolerance := tolerance s;
     history := history s; canvas := canvas s |}.

Definition set_tolerance (t : Z) (s : Session) : Session :=
  {| originalImage := originalImage s; rotation := rotation s; scale := scale s;
     bgRemoveMode := bgRemoveMode s; tolerance := t;
     history := history s; canvas := canvas s |}.

(** Exceptions a handler or an effect can end with. *)
Inductive Exception := IndexSizeError | TypeError.

Inductive outcome (A : Type) :=
  | Ok (a : A)
  | Throws (e : Exception).
Arguments Ok {A} a.
Arguments Throws {A} e.

#[global] Instance outcome_bind : MBind outcome := fun A B k m =>
  match m with
  | Ok a => k a
  | Throws e => Throws e
  end.

(** [ctx.getImageData(0, 0, canvas.width, canvas.height)]: a copy of the
    bitmap; [IndexSizeError] when the width or the height asked for is 0. *)
Definition getImageData (c : ImageData) : outcome ImageData :=
  if (width c =? 0) || (height c =? 0) then Throws IndexSizeError else Ok c.

(** ** TransformStage: the size of the canvas (lines 55-61) *)

Definition isVertical (rotation : Z) : bool :=
  (rotation =? 90) || (rotation =? 270).

Definition scaleFactor (scale : Z) : spec_float :=
  Num.div (Num.of_Z scale) (Num.of_Z 100).

Definition canvas_size (img : Image) (rotation scale : Z) : Z * Z :=
  let w := Num.mul (Num.of_Z (img_width img)) (scaleFactor scale) in
  let h := Num.mul (Num.of_Z (img_height img)) (scaleFactor scale) in
  (Num.to_unsigned_long (if isVertical rotation then h else w),
   Num.to_unsigned_long (if isVertical rotation then w else h)).

(** [renderCanvas] (lines 47-75). *)
Definition renderCanvas (s : Session) : outcome Session :=
  match originalImage s with
  | None => Ok s
  | Some img =>
      let '(cw, ch) := canvas_size img (rotation s) (scale s) in
      let painted := {| width := cw; height := ch;
                        data := drawn img (rotation s) (scale s) |} in
      let s1 := set_canvas painted s in
      if (length (history s) =? 0)%nat then
        imageData ← getImageData painted;
        Ok (set_history [imageData] s1)
      else Ok s1
  end.

(** ** The re-render after a handler *)

(** Whether [renderCanvas] is a new callback in the render of [s], after the
    render of [prev]: one of [rotation], [scale], [history.length] differs.
    ([originalImage] changes only when an image is loaded, see [loadImage].) *)
Definition deps_changed (prev s : Session) : bool :=
  negb ((rotation prev =? rotation s) && (scale prev =? scale s) &&
        (length (history prev) =? length (history s))%nat).

(** The effect [useEffect(() => { renderCanvas(); }, [renderCanvas])] of
    lines 77-79 runs; when it has set the history (lines 71-74), React
    renders again, [history.length] has changed and the effect runs again.
    [settle_two_passes] shows that two passes are always enough. *)
Fixpoint settle (passes : nat) (s : Session) : outcome Session :=
  match passes with
  | O => Ok s
  | S n =>
      s1 ← renderCanvas s;
      if deps_changed s s1 then settle n s1 else Ok s1
  end.

(** The render that follows a handler: [prev] is the session as last
    rendered, [s] the session with the state updates of the handler. *)
Definition commit (prev s : Session) : outcome Session :=
  if deps_changed prev s then settle 2 s else Ok s.

(** ** The handlers *)

(** [img.onload] (lines 37-42); the image is a new object, so the effect
    always runs. *)
Definition loadImage (img : Image) (s : Session) : outcome Session :=
  settle 2
    {| originalImage := Some img; rotation := 0; scale := 100;
       bgRemoveMode := bgRemoveMode s; tolerance := tolerance s;
       history := []; canvas := canvas s |}.

Inductive Direction := cw | ccw.

(** Lines 81-87; [%] is the remainder of JavaScript. *)
Definition newRot (dir : Direction) (prev : Z) : Z :=
  match dir with
  | cw => Z.rem (prev + 90) 360
  | ccw => Z.rem (prev - 90 + 360) 360
  end.

Definition handleRotate (dir : Direction) (s : Session) : outcome Session :=
  commit s (set_rotation (newRot dir (rotation s)) (set_history [] s)).

(** Lines 89-92. *)
Definition handleScaleChange (value : Z) (s : Session) : outcome Session :=
  commit s (set_scale value (set_history [] s)).

(** [floodFill] (lines 95-154), before the re-render. *)
Definition floodFill (startX startY : Z) (s : Session) : outcome Session :=
  imageData ← getImageData (canvas s);
  let data := data imageData in
  let width := width (canvas s) in
  let height := height (canvas s) in
  prevData ← getImageData (canvas s);
  let s1 := set_history (history s ++ [prevData]) s in
  let startIdx := (startY * width + startX) * 4 in
  if is_zero (lookupZ data (startIdx + 3)) then Ok s1
  else
    let final := fill_loop width height (tolerance s) data startX startY in
    Ok (set_canvas {| width := width; height := height;
                      data := fs_data final |} s1).

(** [handleCanvasClick] (lines 156-168). [x] and [y] are the coordinates
    the handler computes from the pointer position. *)
Definition handleCanvasClick (x y : Z) (s : Session) : outcome Session :=
  if bgRemoveMode s then s1 ← floodFill x y s; commit s s1 else Ok s.

(** [handleUndo] (lines 170-184). *)
Definition handleUndo (s : Session) : outcome Session :=
  if (length (history s) <=? 1)%nat then Ok s
  else
    let newHistory := removelast (history s) in
    match last newHistory with
    | None => Throws TypeError
    | Some lastState => commit s (set_history newHistory (set_canvas lastState s))
    end.

(** The canvas element before anything is drawn: 300 x 150, transparent. *)
Definition blank_canvas : ImageData :=
  {| width := 300; height := 150; data := replicate (4 * 300 * 150) 0 |}.

Definition initial : Session :=
  {| originalImage := None; rotation := 0; scale := 100; bgRemoveMode := false;
     tolerance := 30; history := []; canvas := blank_canvas |}.

(** The gestures of a session. *)
Inductive Gesture :=
  | Load (img : Image)
  | Rotate (dir : Direction)
  | Scale (value : Z)
  | EraseMode (on : bool)
  | Tolerance (value : Z)
  | Click (x y : Z)
  | Undo.

Definition perform (g : Gesture) (s : Session) : outcome Session :=
  match g with
  | Load img => loadImage img s
  | Rotate dir => handleRotate dir s
  | Scale value => handleScaleChange value s
  | EraseMode on => Ok (set_bgRemoveMode on s)
  | Tolerance value => Ok (set_tolerance value s)
  | Click x y => handleCanvasClick x y s
  | Undo => handleUndo s
  end.

(** The sessions a user can be in. *)
Inductive reachable : Session -> Prop :=
  | reachable_initial : reachable initial
  | reachable_perform g s s' :
      reachable s -> perform g s = Ok s' -> reachable s'.

(** ** The fill region, in the words of the specification *)

Definition in_bounds (c : ImageData) (p : Z * Z) : Prop :=
  0 <= p.1 < width c /\ 0 <= p.2 < height c.

(** Sample [k] (0 = R, 1 = G, 2 = B, 3 = A) of the pixel at [p]: the byte at
    offset [(y * width + x) * 4 + k]. *)
Definition sample (c : ImageData) (p : Z * Z) (k : Z) : option Z :=
  lookupZ (data c) ((p.2 * width c + p.1) * 4 + k).

(** Two samples differ by at most [tol]. *)
Definition within (tol : Z) (a b : option Z) : Prop :=
  exists u v, a = Some u /\ b = Some v /\ Z.abs (u - v) <= tol.

(** Alpha > 0. *)
Definition opaque (c : ImageData) (p : Z * Z) : Prop :=
  exists a, sample c p 3 = Some a /\ 0 < a.

(** [p] is a pixel of the buffer with alpha > 0 whose R, G and B are each
    within [tol] of the corresponding channel of the seed. *)
Definition similar (c : ImageData) (seed : Z * Z) (tol : Z) (p : Z * Z) : Prop :=
  in_bounds c p /\ opaque c p /\
  within tol (sample c p 0) (sample c seed 0) /\
  within tol (sample c p 1) (sample c seed 1) /\
  within tol (sample c p 2) (sample c seed 2).

(** Up, down, left, right. *)
Definition adjacent (p q : Z * Z) : Prop :=
  q = (p.1 + 1, p.2) \/ q = (p.1 - 1, p.2) \/
  q = (p.1, p.2 + 1) \/ q = (p.1, p.2 - 1).

(** The pixels reachable from the seed by 4-connected steps through similar
    pixels. *)
Inductive region (c : ImageData) (seed : Z * Z) (tol : Z) : Z * Z -> Prop :=
  | region_seed : similar c seed tol seed -> region c seed tol seed
  | region_step p q :
      region c seed tol p -> adjacent p q -> similar c seed tol q ->
      region c seed tol q.

(** The pixel at [p] had alpha > 0 in [before] and has alpha 0 in [after]. *)
Definition erased (before after : ImageData) (p : Z * Z) : Prop :=
  in_bounds before p /\ opaque before p /\ sample after p 3 = Some 0.

(** The number of pixels made transparent between two bitmaps. *)
Fixpoint erased_pixels (before after : list Z) : nat :=
  match before, after with
  | _ :: _ :: _ :: a :: before', _ :: _ :: _ :: a' :: after' =>
      ((if (0 <? a)%Z && (a' =? 0)%Z then 1 else 0) + erased_pixels before' after')%nat
  | _, _ => O
  end.


(** The size the canvas receives for one side of the image. *)
Definition scaled_side (n scale : Z) : Z :=
  Num.to_unsigned_long (Num.mul (Num.of_Z n) (scaleFactor scale)).

(** The bitmap [renderCanvas] paints. *)
Definition baseline (img : Image) (rotation scale : Z) : ImageData :=
  {| width := (canvas_size img rotation scale).1;
     height := (canvas_size img rotation scale).2;
     data := drawn img rotation scale |}.

(** ** The loop, as the proofs see it *)

(** Unmarked entries of [visited]. *)
Definition zeros (l : list Z) : nat := length (filter (λ v, v = 0) l).

(** What decreases at every iteration: a marked pixel costs four pushes. *)
Definition fill_measure (st : FillState) : nat :=
  (4 * zeros (fs_visited st) + length (fs_stack st))%nat.

(** The two shapes of an iteration. *)
Inductive iteration (w h : Z) (tgt : Target) (tol : Z) (st st' : FillState) : Prop :=
  | iteration_skip x y :
      fs_stack st = (x, y) :: fs_stack st' ->
      fs_data st' = fs_data st -> fs_visited st' = fs_visited st ->
      ~ (0 <= x < w /\ 0 <= y < h) \/
      truthy (lookupZ (fs_visited st) (y * w + x)) = true \/
      matches (fs_data st) tgt tol ((y * w + x) * 4) = false ->
      iteration w h tgt tol st st'
  | iteration_mark x y rest :
      fs_stack st = (x, y) :: rest ->
      0 <= x < w -> 0 <= y < h ->
      truthy (lookupZ (fs_visited st) (y * w + x)) = false ->
      matches (fs_data st) tgt tol ((y * w + x) * 4) = true ->
      fs_data st' = storeZ (fs_data st) ((y * w + x) * 4 + 3) 0 ->
      fs_visited st' = storeZ (fs_visited st) (y * w + x) 1 ->
      fs_stack st' = (x, y - 1) :: (x, y + 1) :: (x - 1, y) :: (x + 1, y) :: rest ->
      iteration w h tgt tol st st'.

(** [visited[pos]] is set for the pixel [p]. *)
Definition vis (w : Z) (st : FillState) (p : Z * Z) : Prop :=
  lookupZ (fs_visited st) (p.2 * w + p.1) = Some 1.

(** The invariant of the loop run on the [w] x [h] bitmap [d0] from the seed
    [(x0, y0)]: the marked pixels belong to the region and are the only ones
    changed, and every similar neighbour of a marked pixel is marked or
    pending on the stack. *)
Record fill_inv (w h tol : Z) (d0 : list Z) (x0 y0 : Z) (st : FillState)
    : Prop := {
  inv_len : length (fs_visited st) = Z.to_nat (w * h);
  inv_bits : forall i v, lookupZ (fs_visited st) i = Some v -> v = 0 \/ v = 1;
  inv_vis : forall p, in_bounds (Build_ImageData w h d0) p -> vis w st p ->
    region (Build_ImageData w h d0) (x0, y0) tol p /\
    lookupZ (fs_data st) ((p.2 * w + p.1) * 4 + 3) = Some 0;
  inv_rgb : forall p k, in_bounds (Build_ImageData w h d0) p -> 0 <= k < 3 ->
    lookupZ (fs_data st) ((p.2 * w + p.1) * 4 + k) =
    lookupZ d0 ((p.2 * w + p.1) * 4 + k);
  inv_alpha : forall p, in_bounds (Build_ImageData w h d0) p -> ~ vis w st p ->
    lookupZ (fs_data st) ((p.2 * w + p.1) * 4 + 3) =
    lookupZ d0 ((p.2 * w + p.1) * 4 + 3);
  inv_stack : forall q, q ∈ fs_stack st ->
    q = (x0, y0) \/
    exists p, in_bounds (Build_ImageData w h d0) p /\ vis w st p /\ adjacent p q;
  inv_closed : forall p q,
    in_bounds (Build_ImageData w h d0) p -> vis w st p -> adjacent p q ->
    similar (Build_ImageData w h d0) (x0, y0) tol q ->
    vis w st q \/ q ∈ fs_stack st;
  inv_seed : similar (Build_ImageData w h d0) (x0, y0) tol (x0, y0) ->
    vis w st (x0, y0) \/ (x0, y0) ∈ fs_stack st;
  inv_data_len : length (fs_data st) = length d0
}.

(** The pixel index that the next iteration marks in [visited], when it
    marks one: the coordinates on top of the stack pass the three checks. *)
Definition next_mark (width height : Z) (tgt : Target) (tol : Z)
    (st : FillState) : option Z :=
  match fs_stack st with
  | [] => None
  | (x, y) :: _ =>
      let pos := y * width + x in
      if (x <? 0) || (x >=? width) || (y <? 0) || (y >=? height) then None
      else if truthy (lookupZ (fs_visited st) pos) then None
      else if negb (matches (fs_data st) tgt tol (pos * 4)) then None
      else Some pos
  end.

(** ** A small session, for the examples

    A 3 x 2 photo: a dark corner of two pixels, a red pixel, a transparent
    pixel, a grey pixel and one more dark pixel that touches the dark corner
    only diagonally. At any other rotation or scale it is drawn opaque
    white. *)
Definition photo_bitmap : list Z :=
  [10; 10; 10; 255;   12; 12; 12; 255;   200; 0; 0; 255;
   10; 10; 10; 0;     90; 90; 90; 255;   11; 11; 11; 255].

Definition photo : Image :=
  {| img_width := 3; img_height := 2;
     drawn := fun rotation scale =>
       if (rotation =? 0) && (scale =? 100) then photo_bitmap
       else replicate (Z.to_nat (4 * scaled_side 3 scale * scaled_side 2 scale)) 255 |}.

Definition photo_canvas : ImageData :=
  {| width := 3; height := 2; data := photo_bitmap |}.

(** The session after the photo has been loaded and erase mode switched on. *)
Definition photo_session : Session :=
  {| originalImage := Some photo; rotation := 0; scale := 100;
     bgRemoveMode := true; tolerance := 30;
     history := [photo_canvas]; canvas := photo_canvas |}.

(** ** What holds between two gestures

    Once an image is loaded, the canvas shows the image as [renderCanvas]
    paints it and every snapshot in the history is a copy of that bitmap. *)
Definition settled (s : Session) : Prop :=
  forall img, originalImage s = Some img ->
    canvas s = baseline img (rotation s) (scale s) /\
    history s <> [] /\
    Forall (fun e => e = canvas s) (history s).

(** The side of the canvas is the integer part of the exact quotient, or one
    less when the quotient is an integer. *)
Definition side_near_floor (n s : Z) : bool :=
  (scaled_side n s =? n * s / 100) ||
  ((scaled_side n s =? n * s / 100 - 1) && (n * s mod 100 =? 0)).

(** * Proofs *)

(** ** Typed-array reads and writes *)

Lemma lookupZ_Some (l : list Z) i v :
  lookupZ l i = Some v -> 0 <= i < Z.of_nat (length l).
Proof.
  unfold lookupZ. destruct (Z.ltb_spec i 0); [done|].
  intros H1%lookup_lt_Some. lia.
Qed.

Lemma lookupZ_in_range (l : list Z) i :
  0 <= i < Z.of_nat (length l) -> exists v, lookupZ l i = Some v.
Proof.
  intros Hi. unfold lookupZ. destruct (Z.ltb_spec i 0); [lia|].
  apply lookup_lt_is_Some_2. lia.
Qed.

Lemma length_storeZ (l : list Z) i v : length (storeZ l i v) = length l.
Proof. unfold storeZ. destruct (i <? 0); [done|]. apply length_insert. Qed.

Lemma lookupZ_storeZ_eq (l : list Z) i v :
  0 <= i < Z.of_nat (length l) -> lookupZ (storeZ l i v) i = Some v.
Proof.
  intros Hi. unfold lookupZ, storeZ. destruct (Z.ltb_spec i 0); [lia|].
  apply list_lookup_insert_eq. lia.
Qed.

Lemma lookupZ_storeZ_ne (l : list Z) i j v :
  i <> j -> lookupZ (storeZ l i v) j = lookupZ l j.
Proof.
  intros Hne. unfold lookupZ, storeZ.
  destruct (Z.ltb_spec j 0); [done|]. destruct (Z.ltb_spec i 0); [done|].
  apply list_lookup_insert_ne. lia.
Qed.

Lemma truthy_false_in_range (l : list Z) i :
  0 <= i < Z.of_nat (length l) -> truthy (lookupZ l i) = false ->
  lookupZ l i = Some 0.
Proof.
  intros Hi Ht. destruct (lookupZ_in_range l i Hi) as [v Hv].
  rewrite Hv in Ht |- *. simpl in Ht.
  destruct (Z.eqb_spec v 0); [by subst|done].
Qed.

(** The bounds check of the loop. *)
Lemma bounds_check_false x y w h :
  (x <? 0) || (x >=? w) || (y <? 0) || (y >=? h) = false <->
  (0 <= x < w /\ 0 <= y < h).
Proof.
  rewrite !orb_false_iff, !Z.geb_leb, !Z.ltb_ge, !Z.leb_gt. lia.
Qed.

Lemma pos_in_range x y w h :
  0 <= x < w -> 0 <= y < h -> 0 <= y * w + x < w * h.
Proof. nia. Qed.

Lemma pos_injective x y x' y' w :
  0 <= x < w -> 0 <= x' < w -> y * w + x = y' * w + x' -> x = x' /\ y = y'.
Proof.
  intros Hx Hx' Heq. assert (y = y') by nia. subst. lia.
Qed.

(** ** Termination of the loop *)

Lemma zeros_insert (l : list Z) (i : nat) :
  l !! i = Some 0 -> (zeros (<[i:=1%Z]> l) + 1 = zeros l)%nat.
Proof.
  unfold zeros. revert i. induction l as [|a l IH]; intros [|i] Hi; simplify_eq/=.
  - rewrite filter_cons_False by lia. lia.
  - rewrite !filter_cons. destruct (decide (a = 0)); simpl; rewrite <- (IH i Hi); lia.
Qed.

Lemma zeros_le_length (l : list Z) : (zeros l <= length l)%nat.
Proof. apply length_filter. Qed.

Lemma zeros_replicate n : zeros (replicate n 0) = n.
Proof.
  unfold zeros. induction n as [|n IH]; [done|].
  change (replicate (S n) 0) with (0 :: replicate n 0).
  rewrite filter_cons_True by done. simpl. by rewrite IH.
Qed.

Lemma fill_step_iteration w h tgt tol st st' :
  fill_step w h tgt tol st = Some st' -> iteration w h tgt tol st st'.
Proof.
  unfold fill_step. destruct (fs_stack st) as [|[x y] rest] eqn:Hst; [done|].
  destruct (_ || _) eqn:Hb.
  { intros [= <-]. eapply iteration_skip; [done..|]. left.
    intros Hin%bounds_check_false. congruence. }
  apply bounds_check_false in Hb as [Hx Hy].
  destruct (truthy _) eqn:Hv.
  { intros [= <-]. eapply iteration_skip; [done..|]. by right; left. }
  destruct (matches _ _ _ _) eqn:Hm; simpl.
  - intros [= <-]. by eapply iteration_mark.
  - intros [= <-]. eapply iteration_skip; [done..|]. by right; right.
Qed.

Lemma fill_step_None w h tgt tol st :
  fill_step w h tgt tol st = None <-> fs_stack st = [].
Proof.
  unfold fill_step. destruct (fs_stack st) as [|[x y] rest]; [done|].
  split; [|done]. repeat case_match; done.
Qed.

Lemma iteration_visited_length w h tgt tol st st' :
  iteration w h tgt tol st st' ->
  length (fs_visited st') = length (fs_visited st).
Proof.
  intros [x y _ _ -> _|x y rest _ _ _ _ _ _ -> _]; [done|]. apply length_storeZ.
Qed.

Lemma iteration_measure w h tgt tol st st' :
  length (fs_visited st) = Z.to_nat (w * h) ->
  iteration w h tgt tol st st' ->
  (fill_measure st' < fill_measure st)%nat.
Proof.
  intros Hlen [x y Hs _ Hv _|x y rest Hs Hx Hy Ht _ _ Hv Hs'];
    unfold fill_measure; rewrite Hv, Hs; [simpl; lia|].
  rewrite Hs'. pose proof (pos_in_range x y w h Hx Hy) as Hp.
  apply truthy_false_in_range in Ht; [|lia].
  unfold lookupZ, storeZ in *. destruct (Z.ltb_spec (y * w + x) 0); [lia|].
  apply zeros_insert in Ht. simpl. lia.
Qed.

Lemma fill_iter_exits w h tgt tol n st :
  length (fs_visited st) = Z.to_nat (w * h) ->
  (fill_measure st <= n)%nat ->
  fs_stack (fill_iter w h tgt tol n st) = [].
Proof.
  revert st. induction n as [|n IH]; intros st Hlen Hm; simpl.
  - unfold fill_measure in Hm. destruct (fs_stack st); [done|simpl in Hm; lia].
  - destruct (fill_step w h tgt tol st) as [st'|] eqn:Hstep.
    + apply fill_step_iteration in Hstep.
      apply IH.
      * by rewrite (iteration_visited_length _ _ _ _ _ _ Hstep).
      * pose proof (iteration_measure _ _ _ _ _ _ Hlen Hstep). lia.
    + by apply fill_step_None in Hstep.
Qed.

Lemma fill_start_measure w h d x y :
  fill_measure (fill_start w h d x y) = fill_bound w h.
Proof.
  unfold fill_measure, fill_bound, fill_start. simpl.
  rewrite zeros_replicate. lia.
Qed.

Lemma fill_loop_exits w h tol d x y :
  fs_stack (fill_loop w h tol d x y) = [].
Proof.
  unfold fill_loop. apply fill_iter_exits.
  - simpl. apply length_replicate.
  - by rewrite fill_start_measure.
Qed.

(** ** The loop computes the region *)

Lemma abs_diff_le_within a b tol :
  abs_diff_le a b tol = true <-> within tol a b.
Proof.
  unfold abs_diff_le, within. split.
  - destruct a as [u|], b as [v|]; try done. intros H%Z.leb_le. eauto.
  - intros (u & v & -> & -> & H). by apply Z.leb_le.
Qed.

Lemma positive_sample_spec a :
  positive_sample a = true <-> exists v, a = Some v /\ 0 < v.
Proof.
  unfold positive_sample. split.
  - destruct a as [v|]; [|done]. intros H%Z.ltb_lt. eauto.
  - intros (v & -> & H). by apply Z.ltb_lt.
Qed.

Lemma matches_ext d d' tgt tol i :
  (forall k, 0 <= k < 4 -> lookupZ d (i + k) = lookupZ d' (i + k)) ->
  matches d tgt tol i = matches d' tgt tol i.
Proof.
  intros H. unfold matches.
  rewrite <- (Z.add_0_r i) at 1 5.
  by rewrite !H by lia.
Qed.

Section FillInvariant.

Variables (w h tol : Z) (d0 : list Z) (x0 y0 : Z).

Local Abbreviation buf := (Build_ImageData w h d0).
Local Abbreviation seed := (x0, y0).
Local Abbreviation tgt := (seed_target d0 ((y0 * w + x0) * 4)).
Local Abbreviation idx p := ((p.2 * w + p.1) * 4).
Local Abbreviation vis := (vis w).
Local Abbreviation fill_inv := (fill_inv w h tol d0 x0 y0).

Lemma matches_similar p :
  in_bounds buf p ->
  matches d0 tgt tol (idx p) = true <-> similar buf seed tol p.
Proof.
  intros Hp. unfold matches, similar, opaque, sample. simpl.
  rewrite !andb_true_iff, !abs_diff_le_within, positive_sample_spec.
  rewrite !Z.add_0_r. tauto.
Qed.

Lemma region_in_bounds p : region buf seed tol p -> in_bounds buf p.
Proof. intros [H|? ? _ _ H]; apply H. Qed.

Lemma region_similar p : region buf seed tol p -> similar buf seed tol p.
Proof. by intros [H|? ? _ _ H]. Qed.

Lemma vis_dec st p : vis st p \/ ~ vis st p.
Proof. unfold vis. destruct (decide (lookupZ (fs_visited st) (p.2 * w + p.1) = Some 1)); auto. Qed.

Lemma unvisited_matches st p :
  fill_inv st -> in_bounds buf p -> ~ vis st p ->
  matches (fs_data st) tgt tol (idx p) = matches d0 tgt tol (idx p).
Proof.
  intros Hinv Hp Hv. apply matches_ext. intros k Hk.
  destruct (decide (k = 3)) as [->|]; [by apply (inv_alpha _ _ _ _ _ _ st Hinv)|].
  apply (inv_rgb _ _ _ _ _ _ st Hinv); [done|lia].
Qed.

Lemma fill_inv_start : fill_inv (fill_start w h d0 x0 y0).
Proof.
  assert (Hnv : forall p, ~ vis (fill_start w h d0 x0 y0) p).
  { intros p. unfold vis, lookupZ. simpl. case_match; [done|].
    intros [? _]%lookup_replicate. done. }
  split; simpl; try done.
  - apply length_replicate.
  - intros i v. unfold lookupZ. case_match; [done|].
    intros [-> _]%lookup_replicate. auto.
  - intros p _ Hv. by apply Hnv in Hv.
  - intros q ->%list_elem_of_singleton. by left.
  - intros p q _ Hv. by apply Hnv in Hv.
  - intros _. right. by apply list_elem_of_singleton.
Qed.

Lemma truthy_vis st p :
  fill_inv st -> truthy (lookupZ (fs_visited st) (p.2 * w + p.1)) = true ->
  vis st p.
Proof.
  intros Hinv Ht. unfold vis.
  destruct (lookupZ (fs_visited st) (p.2 * w + p.1)) as [v|] eqn:Hv; [|done].
  destruct (inv_bits _ _ _ _ _ _ st Hinv _ _ Hv) as [->| ->]; done.
Qed.

Lemma fill_inv_skip st st' x y :
  fill_inv st ->
  fs_stack st = (x, y) :: fs_stack st' ->
  fs_data st' = fs_data st -> fs_visited st' = fs_visited st ->
  ~ (0 <= x < w /\ 0 <= y < h) \/
  truthy (lookupZ (fs_visited st) (y * w + x)) = true \/
  matches (fs_data st) tgt tol ((y * w + x) * 4) = false ->
  fill_inv st'.
Proof.
  intros Hinv Hs Hd Hv Hwhy.
  assert (Hvis : forall p, vis st' p <-> vis st p) by (intros p; unfold vis; by rewrite Hv).
  assert (Hdrop : similar buf seed tol (x, y) -> vis st (x, y)).
  { intros Hsim. destruct Hwhy as [Hout|[Ht|Hm]].
    - destruct Hout. apply Hsim.
    - by apply (truthy_vis st (x, y)).
    - destruct (vis_dec st (x, y)) as [|Hnv]; [done|].
      pose proof Hsim as [Hin _].
      pose proof (unvisited_matches st (x, y) Hinv Hin Hnv) as Heq.
      apply matches_similar in Hsim; [|done]. simpl in *. congruence. }
  split.
  - rewrite Hv. apply Hinv.
  - rewrite Hv. apply Hinv.
  - intros p Hp Hvp%Hvis. rewrite Hd. by apply (inv_vis _ _ _ _ _ _ st Hinv).
  - rewrite Hd. apply (inv_rgb _ _ _ _ _ _ st Hinv).
  - intros p Hp Hvp. rewrite Hd. apply (inv_alpha _ _ _ _ _ _ st Hinv); [done|].
    intros Hc. apply Hvp. by apply Hvis.
  - intros q Hq. destruct (inv_stack _ _ _ _ _ _ st Hinv q) as [|(p & ? & ? & ?)].
    + rewrite Hs. by right.
    + by left.
    + right. exists p. by rewrite Hvis.
  - intros p q Hp Hvp%Hvis Hadj Hsim. rewrite Hvis.
    destruct (inv_closed _ _ _ _ _ _ st Hinv p q Hp Hvp Hadj Hsim) as [|Hq]; [by left|].
    rewrite Hs in Hq. apply elem_of_cons in Hq as [->|]; [|by right].
    left. by apply Hdrop.
  - intros Hsim. rewrite Hvis.
    destruct (inv_seed _ _ _ _ _ _ st Hinv Hsim) as [|Hq]; [by left|].
    rewrite Hs in Hq. apply elem_of_cons in Hq as [Heq|]; [|by right].
    left. rewrite Heq. apply Hdrop. by rewrite <- Heq.
  - rewrite Hd. apply Hinv.
Qed.

Lemma fill_inv_mark st st' x y rest :
  fill_inv st ->
  fs_stack st = (x, y) :: rest ->
  0 <= x < w -> 0 <= y < h ->
  truthy (lookupZ (fs_visited st) (y * w + x)) = false ->
  matches (fs_data st) tgt tol ((y * w + x) * 4) = true ->
  fs_data st' = storeZ (fs_data st) ((y * w + x) * 4 + 3) 0 ->
  fs_visited st' = storeZ (fs_visited st) (y * w + x) 1 ->
  fs_stack st' = (x, y - 1) :: (x, y + 1) :: (x - 1, y) :: (x + 1, y) :: rest ->
  fill_inv st'.
Proof.
  intros Hinv Hs Hx Hy Ht Hm Hd Hv Hs'.
  assert (Hin : in_bounds buf (x, y)) by done.
  pose proof (pos_in_range x y w h Hx Hy) as Hpos.
  assert (Hrange : 0 <= y * w + x < Z.of_nat (length (fs_visited st))).
  { rewrite (inv_len _ _ _ _ _ _ st Hinv). lia. }
  assert (Hzero : lookupZ (fs_visited st) (y * w + x) = Some 0)
    by (by apply truthy_false_in_range).
  assert (Hnv : ~ vis st (x, y)) by (unfold vis; simpl; congruence).
  assert (Hsim : similar buf seed tol (x, y)).
  { apply matches_similar; [done|].
    pose proof (unvisited_matches st (x, y) Hinv Hin Hnv) as Heq.
    simpl in *. congruence. }
  assert (Hreg : region buf seed tol (x, y)).
  { destruct (inv_stack _ _ _ _ _ _ st Hinv (x, y)) as [Heq|(p & Hp & Hvp & Hadj)].
    - rewrite Hs. by left.
    - rewrite Heq in Hsim |- *. by apply region_seed.
    - eapply region_step; [|done..]. by apply Hinv. }
  assert (Hnew : vis st' (x, y)).
  { unfold vis. rewrite Hv. simpl. by apply lookupZ_storeZ_eq. }
  assert (Hmono : forall p, vis st p -> vis st' p).
  { intros p Hp. unfold vis in *. rewrite Hv.
    destruct (decide (y * w + x = p.2 * w + p.1)) as [<-|Hne].
    - by apply lookupZ_storeZ_eq.
    - by rewrite lookupZ_storeZ_ne. }
  assert (Hold : forall p, in_bounds buf p -> vis st' p -> p = (x, y) \/ vis st p).
  { intros [px py] [Hpx Hpy] Hp. unfold vis in *. rewrite Hv in Hp. simpl in *.
    destruct (decide (y * w + x = py * w + px)) as [Heq|Hne].
    - left. apply pos_injective in Heq as [-> ->]; done.
    - right. by rewrite lookupZ_storeZ_ne in Hp. }
  assert (Halpha : 0 <= (y * w + x) * 4 + 3 < Z.of_nat (length (fs_data st))).
  { unfold matches in Hm. rewrite !andb_true_iff in Hm.
    destruct Hm as [_ (v & Hv3 & _)%positive_sample_spec].
    by apply lookupZ_Some in Hv3. }
  assert (Hother : forall p k, in_bounds buf p -> 0 <= k < 4 ->
            p <> (x, y) \/ k <> 3 ->
            lookupZ (fs_data st') (idx p + k) = lookupZ (fs_data st) (idx p + k)).
  { intros [px py] k [Hpx Hpy] Hk Hne. rewrite Hd. apply lookupZ_storeZ_ne.
    simpl in *. intros Heq.
    assert (y * w + x = py * w + px /\ k = 3) as [Hp ->] by lia.
    apply pos_injective in Hp as [-> ->]; [|done..]. by destruct Hne. }
  split.
  - rewrite Hv, length_storeZ. apply Hinv.
  - intros i v. rewrite Hv.
    destruct (decide (y * w + x = i)) as [<-|Hne].
    + rewrite lookupZ_storeZ_eq by done. intros [= <-]. by right.
    + rewrite lookupZ_storeZ_ne by done. apply Hinv.
  - intros p Hp Hvp. destruct (Hold p Hp Hvp) as [->|Hvp'].
    + split; [done|]. rewrite Hd. by apply lookupZ_storeZ_eq.
    + destruct (inv_vis _ _ _ _ _ _ st Hinv p Hp Hvp') as [? Ha]. split; [done|].
      rewrite Hother; [done..|lia|]. left. intros ->. by apply Hnv.
  - intros p k Hp Hk. rewrite Hother; [|done|lia|right; lia].
    by apply (inv_rgb _ _ _ _ _ _ st Hinv).
  - intros p Hp Hnvp. rewrite Hother; [|done|lia|left; by intros ->].
    apply (inv_alpha _ _ _ _ _ _ st Hinv); [done|]. intros ?. by apply Hnvp, Hmono.
  - intros q. rewrite Hs', !elem_of_cons. intros Hq.
    assert (adjacent (x, y) q \/ q ∈ rest) as [Hadj|Hrest].
    { unfold adjacent; simpl. tauto. }
    + right. by exists (x, y).
    + destruct (inv_stack _ _ _ _ _ _ st Hinv q) as [|(p & ? & ? & ?)].
      * rewrite Hs. by right.
      * by left.
      * right. exists p. auto.
  - intros p q Hp Hvp Hadj Hsq. rewrite Hs', !elem_of_cons.
    destruct (Hold p Hp Hvp) as [->|Hvp'].
    + right. unfold adjacent in Hadj; simpl in Hadj. tauto.
    + destruct (inv_closed _ _ _ _ _ _ st Hinv p q Hp Hvp' Hadj Hsq) as [|Hq]; [left; auto|].
      rewrite Hs in Hq. apply elem_of_cons in Hq as [->|]; [by left|tauto].
  - intros Hss. rewrite Hs', !elem_of_cons.
    destruct (inv_seed _ _ _ _ _ _ st Hinv Hss) as [|Hq]; [left; auto|].
    rewrite Hs in Hq. apply elem_of_cons in Hq as [Heq|]; [|tauto].
    left. by rewrite Heq.
  - rewrite Hd, length_storeZ. apply Hinv.
Qed.

Lemma fill_inv_iteration st st' :
  fill_inv st -> iteration w h tgt tol st st' -> fill_inv st'.
Proof.
  intros Hinv [x y Hs Hd Hv Hwhy|x y rest Hs Hx Hy Ht Hm Hd Hv Hs'].
  - by eapply fill_inv_skip.
  - by eapply fill_inv_mark.
Qed.

Lemma fill_inv_iter n st :
  fill_inv st -> fill_inv (fill_iter w h tgt tol n st).
Proof.
  revert st. induction n as [|n IH]; intros st Hinv; simpl; [done|].
  destruct (fill_step w h tgt tol st) as [st'|] eqn:Hstep; [|done].
  apply IH. eapply fill_inv_iteration; [done|]. by apply fill_step_iteration.
Qed.

(** When the loop has exited, the marked pixels are the region. *)
Lemma fill_inv_exit st p :
  fill_inv st -> fs_stack st = [] ->
  region buf seed tol p <-> in_bounds buf p /\ vis st p.
Proof.
  intros Hinv Hs. split.
  - intros Hreg. split; [by apply region_in_bounds|].
    induction Hreg as [Hsim|p q Hreg IH Hadj Hsim].
    + destruct (inv_seed _ _ _ _ _ _ st Hinv Hsim) as [|Hq]; [done|].
      rewrite Hs in Hq. by apply elem_of_nil in Hq.
    + destruct (inv_closed _ _ _ _ _ _ st Hinv p q) as [|Hq]; try done.
      * by apply region_in_bounds.
      * rewrite Hs in Hq. by apply elem_of_nil in Hq.
  - intros [Hp Hv]. by apply Hinv.
Qed.

End FillInvariant.

(** ** Iterations, one at a time *)

Lemma fill_iter_done w h tgt tol n st :
  fs_stack st = [] -> fill_iter w h tgt tol n st = st.
Proof.
  intros Hs. destruct n as [|n]; [done|]. simpl.
  by rewrite (proj2 (fill_step_None w h tgt tol st) Hs).
Qed.

Lemma fill_iter_S w h tgt tol n st :
  fill_iter w h tgt tol (S n) st =
  match fill_step w h tgt tol (fill_iter w h tgt tol n st) with
  | Some st' => st'
  | None => fill_iter w h tgt tol n st
  end.
Proof.
  revert st. induction n as [|n IH]; intros st.
  - simpl. by destruct (fill_step w h tgt tol st).
  - change (fill_iter w h tgt tol (S (S n)) st) with
      (match fill_step w h tgt tol st with
       | None => st
       | Some st' => fill_iter w h tgt tol (S n) st'
       end).
    destruct (fill_step w h tgt tol st) as [st'|] eqn:Hstep.
    + rewrite IH. simpl. by rewrite Hstep.
    + simpl. by rewrite Hstep, Hstep.
Qed.

Lemma fill_iter_visited_length w h tgt tol n st :
  length (fs_visited (fill_iter w h tgt tol n st)) = length (fs_visited st).
Proof.
  revert st. induction n as [|n IH]; intros st; simpl; [done|].
  destruct (fill_step w h tgt tol st) as [st'|] eqn:Hstep; [|done].
  rewrite IH. eapply iteration_visited_length. by apply fill_step_iteration.
Qed.

Lemma next_mark_Some w h tgt tol st pos :
  next_mark w h tgt tol st = Some pos ->
  exists x y rest st',
    fs_stack st = (x, y) :: rest /\ pos = y * w + x /\
    0 <= x < w /\ 0 <= y < h /\
    truthy (lookupZ (fs_visited st) pos) = false /\
    fill_step w h tgt tol st = Some st' /\
    fs_visited st' = storeZ (fs_visited st) pos 1 /\
    length (fs_stack st') = (length (fs_stack st) + 3)%nat.
Proof.
  unfold next_mark, fill_step.
  destruct (fs_stack st) as [|[x y] rest]; [done|].
  destruct (_ || _) eqn:Hb; [done|]. apply bounds_check_false in Hb as [Hx Hy].
  destruct (truthy _) eqn:Ht; [done|].
  destruct (negb _); [done|]. intros [= <-].
  eexists x, y, rest, _. repeat split; try done. all: simpl; lia.
Qed.

Lemma next_mark_None w h tgt tol st st' :
  next_mark w h tgt tol st = None ->
  fill_step w h tgt tol st = Some st' ->
  fs_visited st' = fs_visited st /\ fs_data st' = fs_data st /\
  S (length (fs_stack st')) = length (fs_stack st).
Proof.
  unfold next_mark, fill_step.
  destruct (fs_stack st) as [|[x y] rest]; [done|].
  destruct (_ || _); [by intros _ [= <-]|].
  destruct (truthy _); [by intros _ [= <-]|].
  destruct (negb _); [by intros _ [= <-]|done].
Qed.

Lemma visited_mark_stays w h tgt tol st st' i :
  fill_step w h tgt tol st = Some st' ->
  lookupZ (fs_visited st) i = Some 1 -> lookupZ (fs_visited st') i = Some 1.
Proof.
  intros [x y _ _ -> _|x y rest _ _ _ _ _ _ -> _]%fill_step_iteration Hi; [done|].
  destruct (decide (y * w + x = i)) as [<-|Hne].
  - apply lookupZ_storeZ_eq. by apply lookupZ_Some in Hi.
  - by rewrite lookupZ_storeZ_ne.
Qed.

Lemma visited_mark_stays_iter w h tgt tol n st i :
  lookupZ (fs_visited st) i = Some 1 ->
  lookupZ (fs_visited (fill_iter w h tgt tol n st)) i = Some 1.
Proof.
  revert st. induction n as [|n IH]; intros st Hi; simpl; [done|].
  destruct (fill_step w h tgt tol st) as [st'|] eqn:Hstep; [|done].
  apply IH. by eapply visited_mark_stays.
Qed.

Lemma fill_iter_add w h tgt tol n m st :
  fill_iter w h tgt tol (n + m) st =
  fill_iter w h tgt tol m (fill_iter w h tgt tol n st).
Proof.
  revert st. induction n as [|n IH]; intros st; simpl; [done|].
  destruct (fill_step w h tgt tol st) as [st'|] eqn:Hstep; [done|].
  symmetry. apply fill_iter_done. by apply (fill_step_None w h tgt tol).
Qed.

(** C10. The work-list loop of the flood fill terminates, for every buffer
    size, seed and tolerance: it has exited after at most
    [4 * width * height + 1] iterations. No pixel index is marked in
    [visited] by two different iterations; an iteration that marks a pixel
    (its coordinates passed the bounds, visited and match checks) pops one
    work item and pushes four, and any other iteration pops one work item and
    pushes none, changing neither [visited] nor [data]. *)
Theorem fill_loop_terminates width height tol data startX startY :
  let tgt := seed_target data ((startY * width + startX) * 4) in
  let state k := fill_iter width height tgt tol k
                   (fill_start width height data startX startY) in
  (exists n, (n <= 4 * Z.to_nat (width * height) + 1)%nat /\
             fill_step width height tgt tol (state n) = None) /\
  (forall j k pos, (j < k)%nat ->
     next_mark width height tgt tol (state j) = Some pos ->
     next_mark width height tgt tol (state k) <> Some pos) /\
  (forall k st', fill_step width height tgt tol (state k) = Some st' ->
     match next_mark width height tgt tol (state k) with
     | Some pos =>
         length (fs_stack st') = (length (fs_stack (state k)) + 3)%nat /\
         fs_visited st' = storeZ (fs_visited (state k)) pos 1
     | None =>
         S (length (fs_stack st')) = length (fs_stack (state k)) /\
         fs_visited st' = fs_visited (state k) /\ fs_data st' = fs_data (state k)
     end).
Proof.
  intros tgt state. split; [|split].
  - exists (fill_bound width height). split; [unfold fill_bound; lia|].
    apply fill_step_None. apply (fill_loop_exits width height tol data startX startY).
  - intros j k pos Hjk Hj Hk.
    apply next_mark_Some in Hj as (x & y & rest & st' & _ & -> & Hx & Hy & _ & Hstep & Hv & _).
    apply next_mark_Some in Hk as (_ & _ & _ & _ & _ & _ & _ & _ & Ht & _).
    assert (Hset : lookupZ (fs_visited (state (S j))) (y * width + x) = Some 1).
    { unfold state. rewrite fill_iter_S. fold (state j). rewrite Hstep, Hv.
      apply lookupZ_storeZ_eq. unfold state.
      rewrite fill_iter_visited_length. simpl. rewrite length_replicate.
      pose proof (pos_in_range x y width height Hx Hy). lia. }
    replace k with (S j + (k - S j))%nat in Ht by lia.
    unfold state in Ht. rewrite fill_iter_add in Ht.
    rewrite (visited_mark_stays_iter _ _ _ _ _ _ _ Hset) in Ht. done.
  - intros k st' Hstep.
    destruct (next_mark width height tgt tol (state k)) as [pos|] eqn:Hm.
    + apply next_mark_Some in Hm as (x & y & rest & st'' & _ & -> & _ & _ & _ & Hstep' & Hv & Hl).
      rewrite Hstep in Hstep'. by injection Hstep' as <-.
    + destruct (next_mark_None _ _ _ _ _ _ Hm Hstep) as (? & ? & ?). done.
Qed.

(** ** The flood fill on a session *)

Lemma fill_loop_inv w h tol d x y :
  fill_inv w h tol d x y (fill_loop w h tol d x y).
Proof. unfold fill_loop. apply fill_inv_iter, fill_inv_start. Qed.

Lemma region_is_similar c seed tol p :
  region c seed tol p -> similar c seed tol p.
Proof. by intros [H|? ? _ _ H]. Qed.

Lemma region_seed_similar c seed tol p :
  region c seed tol p -> similar c seed tol seed.
Proof. induction 1; done. Qed.

(** What the loop leaves in [data]. *)
Lemma fill_loop_pixels w h tol d x y p :
  let c := Build_ImageData w h d in
  let c' := Build_ImageData w h (fs_data (fill_loop w h tol d x y)) in
  in_bounds c p ->
  (forall k, 0 <= k < 3 -> sample c' p k = sample c p k) /\
  (region c (x, y) tol p -> sample c' p 3 = Some 0) /\
  (~ region c (x, y) tol p -> sample c' p 3 = sample c p 3).
Proof.
  intros c c' Hp. unfold sample; simpl.
  pose proof (fill_loop_inv w h tol d x y) as Hinv.
  pose proof (fill_inv_exit w h tol d x y _ p Hinv
                (fill_loop_exits w h tol d x y)) as Hreg.
  split; [|split].
  - intros k Hk. by apply (inv_rgb _ _ _ _ _ _ _ Hinv).
  - intros [_ Hv]%Hreg. by apply (inv_vis _ _ _ _ _ _ _ Hinv).
  - intros Hn. apply (inv_alpha _ _ _ _ _ _ _ Hinv); [done|].
    intros Hv. apply Hn, Hreg. done.
Qed.

(** Membership in the region is decided by running the loop. *)
Lemma region_dec c seed tol p : region c seed tol p \/ ~ region c seed tol p.
Proof.
  destruct c as [w h d], seed as [x y].
  pose proof (fill_inv_exit w h tol d x y _ p (fill_loop_inv w h tol d x y)
                (fill_loop_exits w h tol d x y)) as Hreg.
  destruct (decide (0 <= p.1 < w /\ 0 <= p.2 < h)) as [Hp|Hp].
  - destruct (vis_dec w (fill_loop w h tol d x y) p) as [Hv|Hv].
    + left. apply Hreg. done.
    + right. intros [_ ?]%Hreg. done.
  - right. intros [? _]%Hreg. done.
Qed.

Lemma floodFill_unfold x y s :
  floodFill x y s =
  if (width (canvas s) =? 0) || (height (canvas s) =? 0)
  then Throws IndexSizeError
  else
    let s1 := set_history (history s ++ [canvas s]) s in
    if is_zero (sample (canvas s) (x, y) 3) then Ok s1
    else Ok (set_canvas
               {| width := width (canvas s); height := height (canvas s);
                  data := fs_data (fill_loop (width (canvas s)) (height (canvas s))
                                     (tolerance s) (data (canvas s)) x y) |} s1).
Proof.
  unfold floodFill, getImageData, mbind, outcome_bind.
  by destruct (_ || _).
Qed.

Lemma is_zero_spec a : is_zero a = true <-> a = Some 0.
Proof.
  destruct a as [v|]; simpl; [|done]. rewrite Z.eqb_eq. split; congruence.
Qed.

Lemma erased_pixels_same (d : list Z) : erased_pixels d d = O.
Proof.
  assert (H : forall n (l : list Z), (length l <= n)%nat -> erased_pixels l l = O).
  { induction n as [|n IH]; intros l Hl.
    - destruct l; [done|simpl in Hl; lia].
    - destruct l as [|r [|g [|b [|a l]]]]; try done. simpl in *.
      rewrite IH by lia. destruct (Z.ltb_spec 0 a), (Z.eqb_spec a 0); simpl; lia. }
  by apply (H (length d)).
Qed.

(** What a fill call that returns has done to the canvas. *)
Lemma floodFill_pixels (s s' : Session) x y :
  floodFill x y s = Ok s' ->
  width (canvas s') = width (canvas s) /\
  height (canvas s') = height (canvas s) /\
  length (data (canvas s')) = length (data (canvas s)) /\
  forall p, in_bounds (canvas s) p ->
    (forall k, 0 <= k < 3 -> sample (canvas s') p k = sample (canvas s) p k) /\
    (region (canvas s) (x, y) (tolerance s) p ->
       sample (canvas s') p 3 = Some 0) /\
    (~ region (canvas s) (x, y) (tolerance s) p ->
       sample (canvas s') p 3 = sample (canvas s) p 3).
Proof.
  rewrite floodFill_unfold. destruct (_ || _); [done|]. simpl.
  destruct (is_zero _) eqn:Hz; intros [= <-]; simpl.
  - repeat split; try done.
    intros Hreg%region_seed_similar. destruct Hreg as (_ & (a & Ha & Hpos) & _).
    apply is_zero_spec in Hz. rewrite Hz in Ha. injection Ha as <-. lia.
  - destruct (canvas s) as [w h d]; simpl.
    split; [done|]. split; [done|]. split.
    + apply (inv_data_len _ _ _ _ _ _ _ (fill_loop_inv w h (tolerance s) d x y)).
    + intros p Hp. by apply fill_loop_pixels.
Qed.

(** C5. In every fill call that returns, the canvas keeps its size and every
    pixel keeps its R, G and B bytes; a pixel of the fill region gets alpha 0
    and a pixel outside the region keeps its alpha byte too. A pixel of a
    second region, which no 4-connected path of similar pixels links to the
    seed, is outside the region and so is unchanged. *)
Theorem floodFill_frame (s s' : Session) x y :
  floodFill x y s = Ok s' ->
  width (canvas s') = width (canvas s) /\
  height (canvas s') = height (canvas s) /\
  length (data (canvas s')) = length (data (canvas s)) /\
  forall p, in_bounds (canvas s) p ->
    (forall k, 0 <= k < 3 -> sample (canvas s') p k = sample (canvas s) p k) /\
    (region (canvas s) (x, y) (tolerance s) p ->
       sample (canvas s') p 3 = Some 0) /\
    (~ region (canvas s) (x, y) (tolerance s) p ->
       sample (canvas s') p 3 = sample (canvas s) p 3).
Proof. apply floodFill_pixels. Qed.

(** C4. For an in-bounds seed with alpha > 0 and a tolerance that is not
    negative, the fill returns, and the pixels it makes transparent are
    exactly the pixels reachable from the seed by 4-connected steps through
    pixels with alpha > 0 whose R, G and B are each within the tolerance of
    the seed's; the seed is one of them. *)
Theorem floodFill_region (s : Session) x y :
  in_bounds (canvas s) (x, y) ->
  opaque (canvas s) (x, y) ->
  0 <= tolerance s ->
  exists s', floodFill x y s = Ok s' /\
    (forall p, erased (canvas s) (canvas s') p <->
               region (canvas s) (x, y) (tolerance s) p) /\
    region (canvas s) (x, y) (tolerance s) (x, y).
Proof.
  intros Hin Hop Htol.
  destruct (floodFill x y s) as [s'|e] eqn:Hfill; cycle 1.
  { rewrite floodFill_unfold in Hfill. destruct Hin as [Hx Hy]. simpl in *.
    destruct (Z.eqb_spec (width (canvas s)) 0), (Z.eqb_spec (height (canvas s)) 0);
      try lia. simpl in Hfill.
    by destruct (is_zero _). }
  exists s'. split; [done|].
  destruct (floodFill_pixels s s' x y Hfill) as (Hw & Hh & Hlen & Hpix).
  assert (Hseed : similar (canvas s) (x, y) (tolerance s) (x, y)).
  { split; [done|]. split; [done|].
    destruct Hop as (a & Ha & _). apply lookupZ_Some in Ha.
    assert (Hk : forall k, 0 <= k < 3 ->
              within (tolerance s) (sample (canvas s) (x, y) k)
                (sample (canvas s) (x, y) k)).
    { intros k Hk. destruct (lookupZ_in_range (data (canvas s))
        ((y * width (canvas s) + x) * 4 + k)) as [v Hv].
      - destruct Hin as [Hx Hy]. simpl in *. nia.
      - exists v, v. unfold sample; simpl. rewrite Hv.
        repeat split. rewrite Z.sub_diag. simpl. lia. }
    repeat split; apply Hk; lia. }
  split; [|by apply region_seed].
  intros p. split.
  - intros (Hp & (a & Ha & Hpos) & Ha').
    destruct (Hpix p Hp) as (_ & _ & Hout).
    destruct (region_dec (canvas s) (x, y) (tolerance s) p) as [|Hn]; [done|].
    rewrite (Hout Hn), Ha in Ha'. injection Ha' as ->. lia.
  - intros Hreg. pose proof (region_is_similar _ _ _ _ Hreg) as Hsim.
    split; [apply Hsim|]. split; [apply Hsim|].
    by apply (Hpix p); [apply Hsim|].
Qed.

Lemma photo_session_reachable : reachable photo_session.
Proof.
  apply (reachable_perform (EraseMode true)
           (set_bgRemoveMode false photo_session)); [|reflexivity].
  apply (reachable_perform (Load photo) initial); [|reflexivity].
  apply reachable_initial.
Qed.

(** C3, as stated, fails: on the photo, the seed (0, 1) is in bounds and has
    alpha 0, yet the fill appends an entry to the history, and so does the
    whole click. *)
Lemma floodFill_transparent_seed_grows_history :
  in_bounds (canvas photo_session) (0, 1) /\
  sample (canvas photo_session) (0, 1) 3 = Some 0 /\
  (exists s', floodFill 0 1 photo_session = Ok s' /\
              history s' <> history photo_session) /\
  (exists s', handleCanvasClick 0 1 photo_session = Ok s' /\
              history s' <> history photo_session).
Proof.
  split; [unfold in_bounds; simpl; lia|]. split; [reflexivity|].
  split; eexists; (split; [reflexivity|]); simpl; discriminate.
Qed.

(** C3, amended. For an in-bounds seed whose pixel has alpha 0 the fill
    returns without touching the canvas: every byte is unchanged and no pixel
    is made transparent. The snapshot taken on entry is still appended: the
    history grows by one entry, a copy of the unchanged canvas. *)
Theorem floodFill_transparent_seed (s : Session) x y :
  in_bounds (canvas s) (x, y) ->
  sample (canvas s) (x, y) 3 = Some 0 ->
  exists s', floodFill x y s = Ok s' /\
    canvas s' = canvas s /\
    erased_pixels (data (canvas s)) (data (canvas s')) = O /\
    history s' = history s ++ [canvas s].
Proof.
  intros [Hx Hy] Ha. rewrite floodFill_unfold. simpl in *.
  destruct (Z.eqb_spec (width (canvas s)) 0), (Z.eqb_spec (height (canvas s)) 0);
    try lia. simpl.
  rewrite Ha. simpl. eexists. split; [done|]. simpl.
  by rewrite erased_pixels_same.
Qed.

Lemma floodFill_transparent_seed_witness :
  in_bounds (canvas photo_session) (0, 1) /\
  sample (canvas photo_session) (0, 1) 3 = Some 0 /\
  exists s', floodFill 0 1 photo_session = Ok s' /\
    canvas s' = canvas photo_session /\
    erased_pixels (data (canvas photo_session)) (data (canvas s')) = O /\
    history s' = history photo_session ++ [canvas photo_session].
Proof.
  assert (Hin : in_bounds (canvas photo_session) (0, 1))
    by (unfold in_bounds; simpl; lia).
  assert (Ha : sample (canvas photo_session) (0, 1) 3 = Some 0) by reflexivity.
  split; [exact Hin|]. split; [exact Ha|].
  exact (floodFill_transparent_seed photo_session 0 1 Hin Ha).
Defined.

(** C9, as stated, fails: on the photo, the seed (3, 0) lies outside the
    3 x 2 canvas, yet the call is not rejected: it returns normally and the
    history has one more entry. *)
Lemma floodFill_seed_outside_grows_history :
  ~ in_bounds (canvas photo_session) (3, 0) /\
  exists s', floodFill 3 0 photo_session = Ok s' /\
             history s' <> history photo_session.
Proof.
  split; [unfold in_bounds; simpl; lia|].
  eexists. split; [reflexivity|]. simpl. discriminate.
Qed.

(** C9, amended. A fill call whose seed lies outside the bounds of a canvas
    that is not empty is not rejected: it returns normally with every byte
    of the canvas unchanged, and the snapshot taken on entry is appended to
    the history. *)
Theorem floodFill_seed_outside (s : Session) x y :
  ~ in_bounds (canvas s) (x, y) ->
  0 < width (canvas s) -> 0 < height (canvas s) ->
  exists s', floodFill x y s = Ok s' /\
    canvas s' = canvas s /\
    history s' = history s ++ [canvas s].
Proof.
  intros Hout Hw Hh. rewrite floodFill_unfold.
  destruct (Z.eqb_spec (width (canvas s)) 0), (Z.eqb_spec (height (canvas s)) 0);
    try lia. simpl.
  destruct (is_zero _); [by eexists|].
  eexists. split; [done|]. simpl. split; [|done].
  destruct (canvas s) as [w h d]. simpl in *. f_equal.
  unfold fill_loop, fill_bound. rewrite Nat.add_1_r. simpl.
  unfold fill_step. simpl.
  destruct (_ || _) eqn:Hb.
  - by rewrite fill_iter_done.
  - apply bounds_check_false in Hb. by destruct Hout.
Qed.

Lemma floodFill_seed_outside_witness :
  ~ in_bounds (canvas photo_session) (3, 0) /\
  0 < width (canvas photo_session) /\ 0 < height (canvas photo_session) /\
  exists s', floodFill 3 0 photo_session = Ok s' /\
    canvas s' = canvas photo_session /\
    history s' = history photo_session ++ [canvas photo_session].
Proof.
  assert (Hout : ~ in_bounds (canvas photo_session) (3, 0))
    by (unfold in_bounds; simpl; lia).
  assert (Hw : 0 < width (canvas photo_session)) by (simpl; lia).
  assert (Hh : 0 < height (canvas photo_session)) by (simpl; lia).
  split; [exact Hout|]. split; [exact Hw|]. split; [exact Hh|].
  exact (floodFill_seed_outside photo_session 3 0 Hout Hw Hh).
Defined.

Lemma floodFill_region_witness :
  in_bounds (canvas photo_session) (0, 0) /\
  opaque (canvas photo_session) (0, 0) /\
  0 <= tolerance photo_session /\
  exists s', floodFill 0 0 photo_session = Ok s' /\
    (forall p, erased (canvas photo_session) (canvas s') p <->
               region (canvas photo_session) (0, 0) (tolerance photo_session) p) /\
    region (canvas photo_session) (0, 0) (tolerance photo_session) (0, 0).
Proof.
  assert (Hin : in_bounds (canvas photo_session) (0, 0))
    by (unfold in_bounds; simpl; lia).
  assert (Hop : opaque (canvas photo_session) (0, 0))
    by (exists 255; split; [reflexivity|lia]).
  assert (Htol : 0 <= tolerance photo_session) by (simpl; lia).
  split; [exact Hin|]. split; [exact Hop|]. split; [exact Htol|].
  exact (floodFill_region photo_session 0 0 Hin Hop Htol).
Defined.

Lemma floodFill_frame_witness :
  exists s', floodFill 0 0 photo_session = Ok s' /\
    data (canvas s') =
      [10; 10; 10; 0;   12; 12; 12; 0;     200; 0; 0; 255;
       10; 10; 10; 0;   90; 90; 90; 255;   11; 11; 11; 255] /\
    forall p, in_bounds (canvas photo_session) p ->
      (forall k, 0 <= k < 3 ->
         sample (canvas s') p k = sample (canvas photo_session) p k) /\
      (region (canvas photo_session) (0, 0) 30 p ->
         sample (canvas s') p 3 = Some 0) /\
      (~ region (canvas photo_session) (0, 0) 30 p ->
         sample (canvas s') p 3 = sample (canvas photo_session) p 3).
Proof.
  eexists. split; [reflexivity|]. split; [reflexivity|].
  apply (floodFill_frame photo_session _ 0 0 eq_refl).
Defined.

(** ** The re-render *)

Lemma deps_changed_refl s : deps_changed s s = false.
Proof. unfold deps_changed. by rewrite !Z.eqb_refl, Nat.eqb_refl. Qed.

Lemma deps_changed_length prev s :
  rotation prev = rotation s -> scale prev = scale s ->
  deps_changed prev s = negb (length (history prev) =? length (history s))%nat.
Proof. intros Hr Hs. unfold deps_changed. by rewrite Hr, Hs, !Z.eqb_refl. Qed.

Lemma deps_changed_history prev s :
  length (history prev) <> length (history s) -> deps_changed prev s = true.
Proof.
  intros Hne. unfold deps_changed.
  destruct (Nat.eqb_spec (length (history prev)) (length (history s))); [done|].
  by rewrite !andb_false_r.
Qed.

Lemma renderCanvas_idle s : originalImage s = None -> renderCanvas s = Ok s.
Proof. unfold renderCanvas. by intros ->. Qed.

Lemma renderCanvas_repaint s img :
  originalImage s = Some img -> history s <> [] ->
  renderCanvas s = Ok (set_canvas (baseline img (rotation s) (scale s)) s).
Proof.
  intros Himg Hh. unfold renderCanvas, baseline. rewrite Himg.
  destruct (canvas_size img (rotation s) (scale s)) as [cw ch].
  destruct (history s); [done|]. done.
Qed.

Lemma renderCanvas_first s img :
  originalImage s = Some img -> history s = [] ->
  renderCanvas s =
  let b := baseline img (rotation s) (scale s) in
  if (width b =? 0) || (height b =? 0) then Throws IndexSizeError
  else Ok (set_history [b] (set_canvas b s)).
Proof.
  intros Himg Hh. unfold renderCanvas, baseline, getImageData. rewrite Himg, Hh.
  destruct (canvas_size img (rotation s) (scale s)) as [cw ch]. simpl.
  by destruct (_ || _).
Qed.

(** After an image is loaded the effect settles in at most two passes: the
    first one paints the canvas and, when the history is empty, seeds it; the
    second one only repaints. *)
Lemma settle_loaded n s img :
  originalImage s = Some img ->
  settle (S (S n)) s =
  let b := baseline img (rotation s) (scale s) in
  match history s with
  | [] => if (width b =? 0) || (height b =? 0) then Throws IndexSizeError
          else Ok (set_history [b] (set_canvas b s))
  | _ :: _ => Ok (set_canvas b s)
  end.
Proof.
  intros Himg. destruct (history s) as [|e l] eqn:Hh.
  - change (settle (S (S n)) s) with
      (s1 ← renderCanvas s; if deps_changed s s1 then settle (S n) s1 else Ok s1).
    rewrite (renderCanvas_first s img Himg Hh). simpl.
    destruct (_ || _); [done|].
    unfold mbind, outcome_bind.
    rewrite deps_changed_history by (rewrite Hh; simpl; lia).
    rewrite (renderCanvas_repaint _ img) by done.
    rewrite deps_changed_length by done. simpl. done.
  - change (settle (S (S n)) s) with
      (s1 ← renderCanvas s; if deps_changed s s1 then settle (S n) s1 else Ok s1).
    rewrite (renderCanvas_repaint s img Himg) by (rewrite Hh; done).
    unfold mbind, outcome_bind.
    rewrite deps_changed_length by done. simpl. by rewrite Nat.eqb_refl.
Qed.

Lemma settle_idle n s : originalImage s = None -> settle (S n) s = Ok s.
Proof.
  intros Himg. simpl. rewrite renderCanvas_idle by done.
  unfold mbind, outcome_bind. by rewrite deps_changed_refl.
Qed.

(** Two passes of the effect are always enough. *)
Lemma settle_two_passes n s : settle (S (S n)) s = settle 2 s.
Proof.
  destruct (originalImage s) as [img|] eqn:Himg.
  - by rewrite !(settle_loaded _ s img Himg).
  - by rewrite !settle_idle.
Qed.


(** ** What every session satisfies *)

Lemma commit_idle prev s : originalImage s = None -> commit prev s = Ok s.
Proof.
  intros Himg. unfold commit. destruct (deps_changed prev s); [|done].
  by apply settle_idle.
Qed.

Lemma commit_repaint prev s img :
  originalImage s = Some img -> history s <> [] ->
  length (history prev) <> length (history s) ->
  commit prev s = Ok (set_canvas (baseline img (rotation s) (scale s)) s).
Proof.
  intros Himg Hh Hlen. unfold commit. rewrite deps_changed_history by done.
  rewrite (settle_loaded 0 s img Himg). by destruct (history s).
Qed.

Lemma commit_reseed prev s img :
  originalImage s = Some img -> history s = [] -> history prev <> [] ->
  commit prev s =
  let b := baseline img (rotation s) (scale s) in
  if (width b =? 0) || (height b =? 0) then Throws IndexSizeError
  else Ok (set_history [b] (set_canvas b s)).
Proof.
  intros Himg Hh Hprev. unfold commit.
  rewrite deps_changed_history by (rewrite Hh; by destruct (history prev)).
  rewrite (settle_loaded 0 s img Himg). by rewrite Hh.
Qed.

Lemma floodFill_fields x y s s' :
  floodFill x y s = Ok s' ->
  originalImage s' = originalImage s /\ rotation s' = rotation s /\
  scale s' = scale s /\ history s' = history s ++ [canvas s] /\
  bgRemoveMode s' = bgRemoveMode s /\ tolerance s' = tolerance s.
Proof.
  rewrite floodFill_unfold. destruct (_ || _); [done|]. simpl.
  by destruct (is_zero _); intros [= <-].
Qed.

Lemma Forall_same_last (c : ImageData) l :
  l <> [] -> Forall (fun e => e = c) l -> last l = Some c.
Proof.
  intros Hne Hall. destruct (last l) as [x|] eqn:Hl.
  - apply last_Some in Hl as [l' ->].
    apply Forall_app in Hall as [_ Hx]. by apply Forall_singleton in Hx as ->.
  - by apply last_None in Hl.
Qed.

Lemma Forall_removelast (c : ImageData) l :
  Forall (fun e => e = c) l -> Forall (fun e => e = c) (removelast l).
Proof.
  intros Hall. destruct (decide (l = [])) as [->|Hne]; [done|].
  rewrite (app_removelast_last c Hne) in Hall.
  by apply Forall_app in Hall as [? _].
Qed.

Lemma snoc_inv (l : list ImageData) :
  l <> [] -> exists l' x, l = l' ++ [x].
Proof.
  intros [x Hx]%last_is_Some. apply last_Some in Hx as [l' ->]. eauto.
Qed.

Lemma handleUndo_pop s h e :
  history s = h ++ [e] -> h <> [] ->
  handleUndo s =
  match last h with
  | None => Throws TypeError
  | Some lastState => commit s (set_history h (set_canvas lastState s))
  end.
Proof.
  intros Hs Hh. unfold handleUndo. rewrite Hs, removelast_last.
  rewrite length_app. simpl.
  destruct (Nat.leb_spec (length h + 1) 1); [|done].
  destruct h; [done|simpl in *; lia].
Qed.

Lemma perform_settled g s s' :
  settled s -> perform g s = Ok s' -> settled s'.
Proof.
  intros Hs. destruct g as [img|dir|v|on|v|x y|]; simpl.
  - (* Load *)
    unfold loadImage. rewrite (settle_loaded 0 _ img) by reflexivity. simpl.
    destruct (_ || _); [done|]. intros [= <-] img' [= <-]. simpl.
    repeat split; [done|]. by apply Forall_singleton.
  - (* Rotate *)
    unfold handleRotate. destruct (originalImage s) as [img|] eqn:Himg.
    + destruct (Hs img Himg) as (_ & Hne & _).
      rewrite (commit_reseed _ _ img) by done. simpl.
      destruct (_ || _); [done|]. intros [= <-] img'. simpl.
      rewrite Himg. intros [= <-].
      repeat split; [done|]. by apply Forall_singleton.
    + rewrite commit_idle by done. intros [= <-] img'. simpl. by rewrite Himg.
  - (* Scale *)
    unfold handleScaleChange. destruct (originalImage s) as [img|] eqn:Himg.
    + destruct (Hs img Himg) as (_ & Hne & _).
      rewrite (commit_reseed _ _ img) by done. simpl.
      destruct (_ || _); [done|]. intros [= <-] img'. simpl.
      rewrite Himg. intros [= <-].
      repeat split; [done|]. by apply Forall_singleton.
    + rewrite commit_idle by done. intros [= <-] img'. simpl. by rewrite Himg.
  - (* EraseMode *) by intros [= <-].
  - (* Tolerance *) by intros [= <-].
  - (* Click *)
    unfold handleCanvasClick. destruct (bgRemoveMode s); [|by intros [= <-]].
    destruct (floodFill x y s) as [s1|e] eqn:Hfill; [|done].
    destruct (floodFill_fields x y s s1 Hfill) as (Himg1 & Hr & Hsc & Hh & _).
    unfold mbind, outcome_bind.
    destruct (originalImage s) as [img|] eqn:Himg.
    + destruct (Hs img Himg) as (Hc & Hne & Hall).
      rewrite (commit_repaint _ _ img); [|done|rewrite Hh; by destruct (history s)|].
      2:{ rewrite Hh, length_app. simpl. lia. }
      intros [= <-] img'. simpl. rewrite Himg1. intros [= <-].
      rewrite Hr, Hsc, Hh, <- Hc. repeat split.
      * by destruct (history s).
      * apply Forall_app. split; [done|]. by apply Forall_singleton.
    + rewrite commit_idle by done. intros [= <-] img'. by rewrite Himg1.
  - (* Undo *)
    destruct (Nat.leb_spec (length (history s)) 1) as [Hle|Hgt].
    { unfold handleUndo. destruct (Nat.leb_spec (length (history s)) 1); [|lia].
      by intros [= <-]. }
    destruct (snoc_inv (history s)) as (h & e & Hh).
    { intros Heq. rewrite Heq in Hgt. simpl in Hgt. lia. }
    assert (Hne : h <> []).
    { intros ->. rewrite Hh in Hgt. simpl in Hgt. lia. }
    rewrite (handleUndo_pop s h e Hh Hne).
    destruct (last h) as [lastState|] eqn:Hlast; [|done].
    destruct (originalImage s) as [img|] eqn:Himg.
    + destruct (Hs img Himg) as (Hc & _ & Hall).
      rewrite (commit_repaint _ _ img); [|done|done|].
      2:{ simpl. rewrite Hh, length_app. simpl. lia. }
      intros [= <-] img'. simpl. rewrite Himg. intros [= <-].
      rewrite <- Hc. repeat split; [done|].
      rewrite Hh in Hall. by apply Forall_app in Hall as [? _].
    + rewrite commit_idle by done. intros [= <-] img'. simpl. by rewrite Himg.
Qed.

Lemma reachable_settled s : reachable s -> settled s.
Proof.
  induction 1 as [|g s s' _ IH Hg].
  - intros img. done.
  - by eapply perform_settled.
Qed.

(** ** Undo *)

(** C8. With at most one entry in the history, [handleUndo] returns normally
    and leaves the whole session, canvas and history included, as it was; so
    does a second call right after the first. *)
Theorem undo_at_baseline (s : Session) :
  (length (history s) <= 1)%nat ->
  handleUndo s = Ok s /\
  (s1 ← handleUndo s; handleUndo s1) = Ok s.
Proof.
  intros Hlen.
  assert (Hundo : handleUndo s = Ok s).
  { unfold handleUndo. by destruct (Nat.leb_spec (length (history s)) 1); [|lia]. }
  split; [done|]. rewrite Hundo. simpl. done.
Qed.

Lemma undo_at_baseline_witness :
  (length (history photo_session) <= 1)%nat /\
  handleUndo photo_session = Ok photo_session /\
  (s1 ← handleUndo photo_session; handleUndo s1) = Ok photo_session.
Proof.
  assert (Hlen : (length (history photo_session) <= 1)%nat) by (simpl; lia).
  split; [exact Hlen|]. exact (undo_at_baseline photo_session Hlen).
Defined.

(** A click in erase mode leaves the canvas as it was: the fill has changed
    the bitmap, but it has also changed [history.length], so that the effect
    repaints the canvas from the image before the next gesture. *)
Lemma click_is_repainted (s s1 : Session) img x y :
  reachable s -> originalImage s = Some img ->
  handleCanvasClick x y s = Ok s1 ->
  canvas s1 = canvas s.
Proof.
  intros Hreach Himg Hclick.
  destruct (reachable_settled s Hreach img Himg) as (Hc & _).
  assert (Hs1 : reachable s1) by (by apply (reachable_perform (Click x y) s)).
  assert (Himg1 : originalImage s1 = Some img /\ rotation s1 = rotation s /\
                  scale s1 = scale s).
  { unfold handleCanvasClick in Hclick.
    destruct (bgRemoveMode s); [|by injection Hclick as <-].
    destruct (floodFill x y s) as [s_fill|] eqn:Hfill; [|done].
    destruct (floodFill_fields x y s s_fill Hfill) as (Hi & Hr & Hsc & Hh & _).
    unfold mbind, outcome_bind in Hclick.
    rewrite (commit_repaint _ _ img) in Hclick.
    - injection Hclick as <-. simpl. by rewrite Hi, Hr, Hsc.
    - congruence.
    - rewrite Hh. by destruct (history s).
    - rewrite Hh, length_app. simpl. lia. }
  destruct Himg1 as (Himg1 & Hr & Hsc).
  destruct (reachable_settled s1 Hs1 img Himg1) as (Hc1 & _). congruence.
Qed.



(** C2. After every gesture of a session (loading an image, rotating,
    scaling, clicking to erase, undoing, and the two switches as well), once
    an image is loaded the bitmap of the canvas is equal to the last entry of
    the history. *)
Theorem canvas_is_last_snapshot (g : Gesture) (s s' : Session) :
  reachable s ->
  perform g s = Ok s' ->
  originalImage s' <> None ->
  last (history s') = Some (canvas s').
Proof.
  intros Hreach Hg Himg.
  assert (Hs' : reachable s') by (by apply (reachable_perform g s)).
  destruct (originalImage s') as [img|] eqn:Hi; [|done].
  destruct (reachable_settled s' Hs' img Hi) as (_ & Hne & Hall).
  by apply Forall_same_last.
Qed.

Lemma canvas_is_last_snapshot_witness :
  reachable photo_session /\
  perform (Click 0 0) photo_session =
    Ok (set_history [photo_canvas; photo_canvas] photo_session) /\
  originalImage (set_history [photo_canvas; photo_canvas] photo_session) <> None /\
  last (history (set_history [photo_canvas; photo_canvas] photo_session)) =
    Some (canvas (set_history [photo_canvas; photo_canvas] photo_session)).
Proof.
  assert (Hg : perform (Click 0 0) photo_session =
               Ok (set_history [photo_canvas; photo_canvas] photo_session))
    by reflexivity.
  assert (Hi : originalImage (set_history [photo_canvas; photo_canvas] photo_session)
               <> None) by (simpl; discriminate).
  split; [exact photo_session_reachable|]. split; [exact Hg|]. split; [exact Hi|].
  exact (canvas_is_last_snapshot (Click 0 0) photo_session _
           photo_session_reachable Hg Hi).
Defined.

(** ** Rotation and scale *)




(** ** The size of the canvas *)






(** ** The truncated side against exact arithmetic *)

(** For the values the scale slider can take (30 to 200 in steps of 5) and
    sides up to 300 pixels, the side of the canvas is the integer part of the
    exact [n * scale / 100], or one less when that quotient is an integer
    that the binary64 product falls just short of. *)
Lemma scaled_side_slider n s :
  0 <= n <= 300 -> 30 <= s <= 200 -> s mod 5 = 0 ->
  scaled_side n s = n * s / 100 \/
  (scaled_side n s = n * s / 100 - 1 /\ n * s mod 100 = 0).
Proof.
  intros Hn Hs Hstep.
  assert (Hall : forallb (fun n => forallb (fun k => side_near_floor n (30 + 5 * k))
                                     (seqZ 0 35)) (seqZ 0 301) = true)
    by (vm_compute; reflexivity).
  rewrite forallb_forall in Hall.
  specialize (Hall n). rewrite forallb_forall in Hall.
  specialize (Hall ltac:(apply list_elem_of_In, elem_of_seqZ; lia) ((s - 30) / 5)
                ltac:(apply list_elem_of_In, elem_of_seqZ; split;
                      [apply Z.div_pos; lia|apply Z.div_lt_upper_bound; lia])).
  replace (30 + 5 * ((s - 30) / 5)) with s in Hall.
  - unfold side_near_floor in Hall.
    apply orb_true_iff in Hall as [H|[H1 H2]%andb_true_iff]; [left|right]; lia.
  - pose proof (Z.div_mod (s - 30) 5 ltac:(lia)) as Hdm.
    assert ((s - 30) mod 5 = 0) by (rewrite <- Zminus_mod_idemp_l, Hstep; reflexivity).
    lia.
Qed.

(** ** Worked examples *)

(** The end-to-end example of the specification: a 200 x 260 image rotated
    by 90 degrees at 50 percent gets a 130 x 100 canvas. *)
Example canvas_size_rotated_half :
  canvas_size {| img_width := 200; img_height := 260; drawn := fun _ _ => [] |}
    90 50 = (130, 100).
Proof. reflexivity. Qed.

(** The product is a binary64 product: [180 * 0.35] is 62.99999999999999,
    and the canvas is 62 pixels wide, one less than the exact 63. *)
Example scaled_side_180_35 :
  scaled_side 180 35 = 62 /\ 180 * 35 / 100 = 63.
Proof. split; reflexivity. Qed.

(** Two solid regions, dark and light, separated by a grey column: filling
    from the dark region leaves the grey and the light pixels as they were. *)
Example floodFill_two_regions :
  floodFill 0 0
    {| originalImage := None; rotation := 0; scale := 100; bgRemoveMode := true;
       tolerance := 30; history := [];
       canvas := {| width := 5; height := 1;
                    data := [10; 10; 10; 255;      10; 10; 10; 255;
                             120; 120; 120; 255;
                             240; 240; 240; 255;   240; 240; 240; 255] |} |} =
  Ok {| originalImage := None; rotation := 0; scale := 100; bgRemoveMode := true;
        tolerance := 30;
        history := [ {| width := 5; height := 1;
                        data := [10; 10; 10; 255;      10; 10; 10; 255;
                                 120; 120; 120; 255;
                                 240; 240; 240; 255;   240; 240; 240; 255] |} ];
        canvas := {| width := 5; height := 1;
                     data := [10; 10; 10; 0;        10; 10; 10; 0;
                              120; 120; 120; 255;
                              240; 240; 240; 255;   240; 240; 240; 255] |} |}.
Proof. reflexivity. Qed.

(** On the photo, the fill from (0, 0) erases the two dark pixels of the top
    row; when [floodFill] returns, the last snapshot is the canvas before the
    fill. The re-render that follows repaints the canvas from the image. *)
Example floodFill_then_repaint :
  (exists s_fill, floodFill 0 0 photo_session = Ok s_fill /\
     data (canvas s_fill) =
       [10; 10; 10; 0;   12; 12; 12; 0;     200; 0; 0; 255;
        10; 10; 10; 0;   90; 90; 90; 255;   11; 11; 11; 255] /\
     history s_fill = [photo_canvas; photo_canvas]) /\
  handleCanvasClick 0 0 photo_session =
    Ok (set_history [photo_canvas; photo_canvas] photo_session).
Proof. split; [eexists; split; [reflexivity|split; reflexivity]|reflexivity]. Qed.
